(** * A-mem: the PostgreSQL/pgvector memory store ([pg_memory_system.py])

    A shallow embedding of [PGMemorySystem] and its five public operations
    ([add_memory], [search_memories], [get_memory], [update_memory],
    [delete_memory]), with the properties the specification states about
    them.

    Modelling choices.
    - The database is the pair of the [SERIAL] sequence behind the [id]
      column and the rows of table [vector_store], kept in insertion order.
      Every operation runs in its own committed transaction; calls are
      sequential.  Loss of the connection and other engine failures are
      outside the model.
    - The sentence-transformer, the clock, [strftime]/[strptime] and
      pgvector's [<=>] operator are libraries the source calls; they are the
      fields of the class [Runtime].
    - Embedding components, distances and similarities are rationals: the
      source's floats are idealised as exact numbers.
    - The search query is answered along an access path: a read of the
      whole table, or the ivfflat index [_init_db] builds, which delivers
      only the rows filed in the lists it reads for the query.  Which rows
      those are, and the order in which the engine meets the rows, are
      left open.
    - The [metadata] column holds a JSON object; it is a finite map from
      keys to JSON values.
    - Ids are unbounded integers: the end of the 32-bit [SERIAL] range is
      not modelled. *)

From Stdlib Require Import QArith Qreduction.
From stdpp Require Import gmap strings list sorting.

Close Scope Q_scope.
Open Scope Z_scope.

(** ** Python values *)

(** Truth value of a Python object, as tested by [if x:] and [x or y]. *)
Class Truthy (A : Type) := truthy : A → bool.

#[export] Instance str_truthy : Truthy string :=
  λ s, negb (String.eqb s EmptyString).

#[export] Instance list_truthy {A} : Truthy (list A) :=
  λ l, match l with [] => false | _ :: _ => true end.

(** [None] is false; [Some v] is as true as [v] is. *)
#[export] Instance option_truthy `{Truthy A} : Truthy (option A) :=
  λ o, match o with Some a => truthy a | None => false end.

(** The value an [Optional] argument contributes under [if x:]: the
    argument itself when it is truthy, nothing otherwise. *)
Definition provided `{Truthy A} (o : option A) : option A :=
  match o with
  | Some a => if truthy a then Some a else None
  | None => None
  end.

(** [x or d] for an [Optional] argument [x]. *)
Definition py_or `{Truthy A} (o : option A) (d : A) : A :=
  match o with
  | Some a => if truthy a then a else d
  | None => d
  end.

(** JSON values found in the metadata object: strings and lists of
    strings. *)
Inductive jval : Type :=
| JStr (s : string)
| JArr (l : list string).

Inductive exn : Type :=
| ValueError   (* [datetime.strptime] on a malformed timestamp *)
| DataError.   (* the engine rejects a negative [LIMIT] *)

Inductive outcome (A : Type) : Type :=
| Returns (a : A)
| Raises (e : exn).
Arguments Returns {A} a.
Arguments Raises {A} e.

(** ** The libraries the store calls *)

Class Runtime := {
  (** [datetime.datetime] *)
  datetime : Type;
  (** [SentenceTransformer(model_name).encode(text).tolist()] *)
  encode : string → list Q;
  (** the model's output dimension, the width of column [embedding] *)
  encode_dim : ∀ s, length (encode s) = 384%nat;
  (** [d.strftime('%Y%m%d%H%M')] *)
  strftime : datetime → string;
  (** [datetime.strptime(s, '%Y%m%d%H%M')]; [None] is [ValueError] *)
  strptime : string → option datetime;
  (** a formatted clock reading parses back *)
  strptime_strftime : ∀ d, is_Some (strptime (strftime d));
  (** pgvector's [a <=> b] *)
  cosine_distance : list Q → list Q → Q
}.

Section Model.
Context `{RT : Runtime}.

(** ** The table [vector_store] *)

Record row : Type := Row {
  row_id : Z;
  timestamp : datetime;
  text : string;
  embedding : list Q;
  model : string;
  metadata : gmap string jval
}.

(** A [PGMemorySystem] with the database it is connected to. *)
Record pg : Type := PG {
  model_name : string;
  id_seq : Z;                 (* next value of [vector_store_id_seq] *)
  vector_store : list row     (* rows, oldest first *)
}.

(** [_init_db] on a fresh database. *)
Definition init_db (name : string) : pg :=
  {| model_name := name; id_seq := 1; vector_store := [] |}.

(** [_get_embedding] *)
Definition _get_embedding (txt : string) : list Q := encode txt.

(** [... WHERE id = %s] *)
Definition where_id (memory_id : Z) (tbl : list row) : list row :=
  filter (λ r, row_id r = memory_id) tbl.

(** [cur.fetchone()] after [SELECT ... WHERE id = %s] *)
Definition fetchone_by_id (memory_id : Z) (tbl : list row) : option row :=
  head (where_id memory_id tbl).

(** ** add_memory *)

Definition add_memory (st : pg) (content : string)
    (tags : option (list string)) (category : option string)
    (timestamp_arg : option string) (now : datetime) : outcome (Z * pg) :=
  let embedding := _get_embedding content in
  let ts := py_or timestamp_arg (strftime now) in
  let md : gmap string jval :=
    <["tags" := JArr (py_or tags [])]>
      (<["category" := JStr (py_or category "Uncategorized")]>
         (<["timestamp" := JStr ts]> ∅)) in
  match strptime ts with
  | None => Raises ValueError
  | Some t =>
      let memory_id := id_seq st in
      let r := {| row_id := memory_id; timestamp := t; text := content;
                  embedding := embedding; model := model_name st;
                  metadata := md |} in
      Returns (memory_id,
               {| model_name := model_name st;
                  id_seq := memory_id + 1;
                  vector_store := vector_store st ++ [r] |})
  end.

(** ** get_memory *)

(** The dictionary [get_memory] returns. *)
Record memory : Type := Memory {
  m_id : Z;
  m_content : string;
  m_metadata : gmap string jval
}.

Definition get_memory (st : pg) (memory_id : Z) : option memory :=
  match fetchone_by_id memory_id (vector_store st) with
  | Some r => Some {| m_id := row_id r; m_content := text r;
                      m_metadata := metadata r |}
  | None => None
  end.

(** ** update_memory *)

(** [UPDATE vector_store SET text = %s, embedding = %s, metadata = %s
     WHERE id = %s] *)
Definition sql_update_content (txt : string) (emb : list Q)
    (md : gmap string jval) (memory_id : Z) (tbl : list row) : list row :=
  (λ r, if decide (row_id r = memory_id)
        then {| row_id := row_id r; timestamp := timestamp r; text := txt;
                embedding := emb; model := model r; metadata := md |}
        else r) <$> tbl.

(** [UPDATE vector_store SET metadata = %s WHERE id = %s] *)
Definition sql_update_metadata (md : gmap string jval) (memory_id : Z)
    (tbl : list row) : list row :=
  (λ r, if decide (row_id r = memory_id)
        then {| row_id := row_id r; timestamp := timestamp r;
                text := text r; embedding := embedding r; model := model r;
                metadata := md |}
        else r) <$> tbl.

Definition set_content (c : string) (m : memory) : memory :=
  {| m_id := m_id m; m_content := c; m_metadata := m_metadata m |}.

(** [memory['metadata'][key] = v] *)
Definition set_meta (key : string) (v : jval) (m : memory) : memory :=
  {| m_id := m_id m; m_content := m_content m;
     m_metadata := <[key := v]> (m_metadata m) |}.

Definition update_memory (st : pg) (memory_id : Z) (content : option string)
    (tags : option (list string)) (category : option string) : bool * pg :=
  match get_memory st memory_id with
  | None => (false, st)
  | Some memory =>
      let '(memory, embedding) :=
        match provided content with
        | Some c => (set_content c memory, Some (_get_embedding c))
        | None => (memory, None)
        end in
      let memory :=
        match provided tags with
        | Some t => set_meta "tags" (JArr t) memory
        | None => memory
        end in
      let memory :=
        match provided category with
        | Some c => set_meta "category" (JStr c) memory
        | None => memory
        end in
      let tbl :=
        match provided embedding with
        | Some e =>
            sql_update_content (m_content memory) e (m_metadata memory)
              memory_id (vector_store st)
        | None =>
            sql_update_metadata (m_metadata memory) memory_id
              (vector_store st)
        end in
      (true, {| model_name := model_name st; id_seq := id_seq st;
                vector_store := tbl |})
  end.

(** ** delete_memory *)

Definition delete_memory (st : pg) (memory_id : Z) : bool * pg :=
  let rowcount := length (where_id memory_id (vector_store st)) in
  (bool_decide (0 < rowcount)%nat,
   {| model_name := model_name st; id_seq := id_seq st;
      vector_store := filter (λ r, row_id r ≠ memory_id) (vector_store st) |}).

(** ** search_memories *)

(** One element of the list [search_memories] returns. *)
Record hit : Type := Hit {
  h_id : Z;
  h_content : string;
  h_metadata : gmap string jval;
  similarity : Q
}.

(** [embedding <=> %s::vector] *)
Definition distance (qv : list Q) (r : row) : Q :=
  cosine_distance (embedding r) qv.

(** The select list:
    [id, text, metadata, 1 - (embedding <=> %s::vector) as similarity] *)
Definition select_hit (qv : list Q) (r : row) : hit :=
  {| h_id := row_id r; h_content := text r; h_metadata := metadata r;
     similarity := (1 - distance qv r)%Q |}.

(** [ORDER BY embedding <=> %s::vector]: ascending distance. *)
Definition distance_le (qv : list Q) (r1 r2 : row) : Prop :=
  (distance qv r1 <= distance qv r2)%Q.

#[export] Instance distance_le_dec qv r1 r2 : Decision (distance_le qv r1 r2).
Proof.
  unfold distance_le.
  destruct (Qlt_le_dec (distance qv r2) (distance qv r1)) as [Hlt|Hle].
  - right. intros Hle. exact (Qlt_not_le _ _ Hlt Hle).
  - left. exact Hle.
Defined.

(** How the engine reads [vector_store] for the query.  [_init_db] builds
    an ivfflat index on [embedding] for the cosine operator, so the engine
    has two ways: read every row, or ask the index.  The index files each
    row under one of its lists by the row's embedding and answers a query
    from the lists nearest to the query vector; [probed qv v] says whether
    a row with embedding [v] is filed in a list read for the query vector
    [qv].  That depends on the centres the index drew when it was built,
    which the source does not fix. *)
Inductive access_path : Type :=
| SeqScan
| IndexScan (probed : list Q → list Q → bool).

(** The rows an access path delivers, out of the rows in the order [heap]
    in which the engine meets them. *)
Definition scan (path : access_path) (qv : list Q) (heap : list row)
    : list row :=
  match path with
  | SeqScan => heap
  | IndexScan probed => filter (λ r, probed qv (embedding r) = true) heap
  end.

(** [ORDER BY embedding <=> %s::vector], as an insertion sort: rows at the
    same distance stay in the order they were delivered in. *)
Fixpoint insert_by_distance (qv : list Q) (r : row) (l : list row)
    : list row :=
  match l with
  | [] => [r]
  | x :: l' =>
      if decide (distance_le qv r x) then r :: x :: l'
      else x :: insert_by_distance qv r l'
  end.

Definition sort_by_distance (qv : list Q) (l : list row) : list row :=
  foldr (insert_by_distance qv) [] l.

(** [SELECT ... FROM vector_store ORDER BY embedding <=> q LIMIT k] run
    along [path]; the engine rejects a negative [k]. *)
Definition sql_order_limit (path : access_path) (qv : list Q) (k : Z)
    (heap : list row) : outcome (list row) :=
  if decide (k < 0) then Raises DataError
  else Returns (take (Z.to_nat k) (sort_by_distance qv (scan path qv heap))).

(** One run of [search_memories]: [heap] is the table in the order the
    engine meets its rows.  An [UPDATE] writes a new version of a row, so
    that order need not be the order of insertion. *)
Definition search_memories_run (path : access_path) (heap : list row)
    (query : string) (k : Z) : outcome (list hit) :=
  let query_embedding := _get_embedding query in
  match sql_order_limit path query_embedding k heap with
  | Returns rows => Returns (select_hit query_embedding <$> rows)
  | Raises e => Raises e
  end.

(** [search_memories st query k] may return [results]: some access path
    over the rows of the table, met in some order, returns them. *)
Definition search_memories (st : pg) (query : string) (k : Z)
    (results : list hit) : Prop :=
  ∃ path heap, heap ≡ₚ vector_store st ∧
               search_memories_run path heap query k = Returns results.

(** ** The primary-key invariant *)

(** [id SERIAL PRIMARY KEY]: ids are pairwise distinct and were all drawn
    from the sequence. *)
Definition wf (st : pg) : Prop :=
  NoDup (row_id <$> vector_store st) ∧
  Forall (λ r, row_id r < id_seq st) (vector_store st).

(** The states a [PGMemorySystem] reaches from a fresh database. *)
Inductive reachable : pg → Prop :=
| reach_init name :
    reachable (init_db name)
| reach_add st content tags category ts now memory_id st' :
    reachable st →
    add_memory st content tags category ts now = Returns (memory_id, st') →
    reachable st'
| reach_update st memory_id content tags category :
    reachable st →
    reachable (update_memory st memory_id content tags category).2
| reach_delete st memory_id :
    reachable st →
    reachable (delete_memory st memory_id).2.

End Model.

(** The row [update_memory] leaves in place of row [x] when the record it
    read back is [r]: the columns it writes, the others kept. *)
Definition patch `{RT : Runtime} (r : row) (content : option string)
    (tags : option (list string)) (category : option string) (x : row) : row :=
  let md1 := match provided tags with
             | Some t => <["tags" := JArr t]> (metadata r)
             | None => metadata r
             end in
  let md2 := match provided category with
             | Some c => <["category" := JStr c]> md1
             | None => md1
             end in
  {| row_id := row_id x; timestamp := timestamp x;
     text := match provided content with Some c => c | None => text x end;
     embedding := match provided content with
                  | Some c => _get_embedding c
                  | None => embedding x
                  end;
     model := model x; metadata := md2 |}.

(** The rewrite of the table an update of [memory_id] performs after
    reading record [r]. *)
Definition rewrite_row `{RT : Runtime} (r : row) (memory_id : Z)
    (content : option string) (tags : option (list string))
    (category : option string) (x : row) : row :=
  if decide (row_id x = memory_id) then patch r content tags category x else x.

(** The round trip of [add_memory] and [get_memory] read to the letter:
    the record read back carries the arguments, and the default only where
    an argument was not passed. *)
Definition round_trip_as_stated `{RT : Runtime} (st : pg) (content : string)
    (tags : option (list string)) (category : option string)
    (now : datetime) : Prop :=
  ∃ memory_id st' m,
    add_memory st content tags category None now = Returns (memory_id, st') ∧
    get_memory st' memory_id = Some m ∧
    m_content m = content ∧
    m_metadata m !! "tags" = Some (JArr (default [] tags)) ∧
    m_metadata m !! "category" =
      Some (JStr (default "Uncategorized"%string category)).

(** The result of a search read to the letter: every list a search returns
    is in non-increasing order of similarity and has [min k n] elements
    for a table of [n] rows. *)
Definition search_sorted_limit_as_stated `{RT : Runtime} (st : pg)
    (query : string) (k : Z) : Prop :=
  ∀ results, search_memories st query k results →
    StronglySorted (λ h1 h2, (similarity h2 <= similarity h1)%Q) results ∧
    length results = (Z.to_nat k `min` length (vector_store st))%nat.




(** ** Sequences of calls *)

(** A call that can change the store. *)
Inductive call `{RT : Runtime} : Type :=
| CallAdd (content : string) (tags : option (list string))
    (category : option string) (timestamp_arg : option string)
    (now : datetime)
| CallUpdate (memory_id : Z) (content : option string)
    (tags : option (list string)) (category : option string)
| CallDelete (memory_id : Z).

(** The store after a sequence of calls, with the ids the successful
    [add_memory] calls returned, in order.  A call that raises leaves the
    store as it was. *)
Fixpoint run_calls `{RT : Runtime} (st : pg) (calls : list call)
    : pg * list Z :=
  match calls with
  | [] => (st, [])
  | CallAdd content tags category ts now :: rest =>
      match add_memory st content tags category ts now with
      | Returns (memory_id, st') =>
          let '(st'', ids) := run_calls st' rest in (st'', memory_id :: ids)
      | Raises _ => run_calls st rest
      end
  | CallUpdate memory_id content tags category :: rest =>
      run_calls (update_memory st memory_id content tags category).2 rest
  | CallDelete memory_id :: rest =>
      run_calls (delete_memory st memory_id).2 rest
  end.

(** The argument a second [update_memory] makes of a field already updated
    by a first one: the later value when it is provided, the earlier one
    otherwise. *)
Definition later_or `{Truthy A} (later earlier : option A) : option A :=
  match provided later with
  | Some a => Some a
  | None => earlier
  end.

(** ** What every stored row looks like *)

(** The embedding of a row is the embedding of its text, and its model is
    the model of the system. *)
Definition row_derived `{RT : Runtime} (st : pg) (r : row) : Prop :=
  embedding r = _get_embedding (text r) ∧
  length (embedding r) = 384%nat ∧
  model r = model_name st.

(** The metadata of a row has a list of tags, a category that is not the
    empty string, and the timestamp string the [timestamp] column was
    parsed from. *)
Definition metadata_shaped `{RT : Runtime} (r : row) : Prop :=
  ∃ tags category ts,
    metadata r !! "tags" = Some (JArr tags) ∧
    metadata r !! "category" = Some (JStr category) ∧
    category ≠ EmptyString ∧
    metadata r !! "timestamp" = Some (JStr ts) ∧
    strptime ts = Some (timestamp r).

(** ** A concrete runtime

    A small instance of [Runtime] on which the operations can be run: texts
    are embedded as unit vectors, for which the cosine distance is one minus
    the dot product. *)
Module Demo.

Definition one_hot (i : nat) : list Q := <[i := 1%Q]> (replicate 384 0%Q).

Definition demo_encode (s : string) : list Q :=
  one_hot (String.length s `mod` 384).

Fixpoint dot (a b : list Q) : Q :=
  match a, b with
  | x :: a', y :: b' => (x * y + dot a' b')%Q
  | _, _ => 0%Q
  end.

Definition demo_distance (a b : list Q) : Q := (1 - dot a b)%Q.

Definition demo_strptime (s : string) : option string :=
  if decide (String.length s = 12%nat) then Some s else None.

Definition demo_runtime : Runtime.
Proof.
  refine {| datetime := string;
            encode := demo_encode;
            strftime := λ d, "202611030900";
            strptime := demo_strptime;
            cosine_distance := demo_distance |}.
  - intros s. unfold demo_encode, one_hot.
    by rewrite length_insert, length_replicate.
  - intros d. by eexists.
Defined.

Definition empty_store : @pg demo_runtime := @init_db demo_runtime "all-MiniLM-L6-v2".

(** The store after adding [items] in order, each at clock reading
    ["202611030900"]. *)
Fixpoint add_all (st : @pg demo_runtime)
    (items : list (string * option (list string) * option string))
    : @pg demo_runtime :=
  match items with
  | [] => st
  | (c, t, g) :: rest =>
      match @add_memory demo_runtime st c t g None "202611030900"%string with
      | Returns (_, st') => add_all st' rest
      | Raises _ => st
      end
  end.

(** Three notes; the third repeats the text of the first, so the two have
    the same embedding. *)
Definition sample_store : @pg demo_runtime :=
  add_all empty_store
    [("I like R&B music"%string, Some ["music"%string], Some "Hobby"%string);
     ("I want to see Mount Fuji"%string, Some ["travel"%string], None);
     ("I like R&B music"%string, None, None)].

(** The first of them, as [add_memory] stored it. *)
Definition sample_row1 : @row demo_runtime :=
  @Row demo_runtime 1 "202611030900"%string "I like R&B music"
    (demo_encode "I like R&B music") "all-MiniLM-L6-v2"
    (<["tags" := JArr ["music"%string]]>
       (<["category" := JStr "Hobby"]>
          (<["timestamp" := JStr "202611030900"]> ∅))).

(** The position of the first component of a vector that is not zero. *)
Definition hot (v : list Q) : option nat :=
  fst <$> list_find (λ x, Qnum x ≠ 0) v.

(** An index whose lists hold the vectors by the position of their first
    non-zero component: a query reads the list its own vector falls in. *)
Definition demo_probed (qv v : list Q) : bool := bool_decide (hot qv = hot v).

(** The ids a run returns. *)
Definition ids_of (run : outcome (list hit)) : list Z :=
  match run with
  | Returns results => h_id <$> results
  | Raises _ => []
  end.

End Demo.

(** * Properties *)

Section Proofs.
Context `{RT : Runtime}.
Implicit Types (st : pg) (tbl : list row) (r : row) (memory_id : Z).

Lemma provided_truthy `{Truthy A} (o : option A) :
  truthy o = false → provided o = None.
Proof. destruct o as [a|]; simpl; [|done]. unfold truthy at 1. simpl. by intros ->. Qed.

Lemma provided_Some `{Truthy A} (o : option A) a :
  provided o = Some a → o = Some a ∧ truthy a = true.
Proof.
  destruct o as [b|]; simpl; [|done].
  destruct (truthy b) eqn:Hb; [|done]. intros [= ->]. done.
Qed.

Lemma provided_embedding (c : string) :
  provided (Some (_get_embedding c)) = Some (_get_embedding c).
Proof.
  unfold provided, _get_embedding.
  pose proof (encode_dim c) as Hlen.
  destruct (encode c); [discriminate Hlen | done].
Qed.

(** *** Selecting rows by primary key *)

Lemma fetchone_by_id_Some tbl memory_id r :
  fetchone_by_id memory_id tbl = Some r → r ∈ tbl ∧ row_id r = memory_id.
Proof.
  unfold fetchone_by_id, where_id. intros Hhd.
  apply head_Some_elem_of in Hhd.
  by apply list_elem_of_filter in Hhd as [? ?].
Qed.

Lemma where_id_nil tbl memory_id :
  where_id memory_id tbl = [] ↔ ∀ r, r ∈ tbl → row_id r ≠ memory_id.
Proof.
  unfold where_id. split.
  - intros Hnil r Hr Hid.
    assert (r ∈ filter (λ r, row_id r = memory_id) tbl) as Hin
      by (apply list_elem_of_filter; done).
    rewrite Hnil in Hin. by apply not_elem_of_nil in Hin.
  - intros Hno. induction tbl as [|x tbl IH]; [done|].
    rewrite filter_cons. destruct (decide (row_id x = memory_id)) as [Heq|_].
    + exfalso. eapply Hno; [left | done].
    + apply IH. intros r Hr. apply Hno. by right.
Qed.

Lemma fetchone_by_id_None tbl memory_id :
  fetchone_by_id memory_id tbl = None ↔ ∀ r, r ∈ tbl → row_id r ≠ memory_id.
Proof. unfold fetchone_by_id. rewrite head_None. apply where_id_nil. Qed.

Lemma fetchone_by_id_in tbl memory_id :
  memory_id ∈ row_id <$> tbl → is_Some (fetchone_by_id memory_id tbl).
Proof.
  intros (r & -> & Hr)%list_elem_of_fmap.
  destruct (fetchone_by_id (row_id r) tbl) eqn:Hfetch; [done|].
  exfalso. by eapply (proj1 (fetchone_by_id_None _ _) Hfetch).
Qed.

Lemma fetchone_by_id_not_in tbl memory_id :
  memory_id ∉ row_id <$> tbl → fetchone_by_id memory_id tbl = None.
Proof.
  intros Hnot. apply fetchone_by_id_None. intros r Hr <-.
  apply Hnot. by apply list_elem_of_fmap_2.
Qed.

Lemma where_id_unique tbl r :
  NoDup (row_id <$> tbl) → r ∈ tbl → where_id (row_id r) tbl = [r].
Proof.
  unfold where_id. induction tbl as [|x tbl IH]; intros Hnd Hin.
  { by apply not_elem_of_nil in Hin. }
  rewrite fmap_cons in Hnd. apply NoDup_cons in Hnd as [Hx Hnd].
  rewrite filter_cons. apply elem_of_cons in Hin as [->|Hin].
  - rewrite decide_True by done. f_equal.
    apply (proj2 (where_id_nil tbl (row_id x))).
    intros r Hr Heq. apply Hx. rewrite <- Heq. by apply list_elem_of_fmap_2.
  - destruct (decide (row_id x = row_id r)) as [Heq|_]; [|by apply IH].
    exfalso. apply Hx. rewrite Heq. by apply list_elem_of_fmap_2.
Qed.

Lemma fetchone_by_id_unique tbl r :
  NoDup (row_id <$> tbl) → r ∈ tbl → fetchone_by_id (row_id r) tbl = Some r.
Proof. intros Hnd Hin. unfold fetchone_by_id. by rewrite where_id_unique. Qed.

(** A rewrite of rows that keeps their ids commutes with selection by id. *)
Lemma where_id_fmap (f : row → row) tbl memory_id :
  (∀ x, row_id (f x) = row_id x) →
  where_id memory_id (f <$> tbl) = f <$> where_id memory_id tbl.
Proof.
  intros Hf. unfold where_id. induction tbl as [|x tbl IH]; [done|].
  rewrite fmap_cons, !filter_cons, Hf.
  destruct (decide (row_id x = memory_id)); rewrite IH; done.
Qed.

Lemma fetchone_by_id_fmap (f : row → row) tbl memory_id :
  (∀ x, row_id (f x) = row_id x) →
  fetchone_by_id memory_id (f <$> tbl) = f <$> fetchone_by_id memory_id tbl.
Proof.
  intros Hf. unfold fetchone_by_id. rewrite where_id_fmap by done.
  by destruct (where_id memory_id tbl).
Qed.

(** *** What [update_memory] writes *)

Lemma rewrite_row_id r memory_id content tags category x :
  row_id (rewrite_row r memory_id content tags category x) = row_id x.
Proof. unfold rewrite_row. by destruct (decide _). Qed.

Lemma update_memory_absent st memory_id content tags category :
  fetchone_by_id memory_id (vector_store st) = None →
  update_memory st memory_id content tags category = (false, st).
Proof. intros Hnone. unfold update_memory, get_memory. by rewrite Hnone. Qed.

Lemma update_memory_found st memory_id r content tags category :
  fetchone_by_id memory_id (vector_store st) = Some r →
  update_memory st memory_id content tags category =
    (true, {| model_name := model_name st; id_seq := id_seq st;
              vector_store :=
                rewrite_row r memory_id content tags category
                  <$> vector_store st |}).
Proof.
  intros Hsome. unfold update_memory, get_memory. rewrite Hsome.
  unfold rewrite_row, patch.
  destruct (provided content) as [c|] eqn:Hc;
    destruct (provided tags) as [t|] eqn:Ht;
    destruct (provided category) as [g|] eqn:Hg;
    rewrite ?provided_embedding; simpl;
    unfold sql_update_content, sql_update_metadata; simpl; done.
Qed.

Lemma update_memory_fetch st memory_id r content tags category :
  wf st →
  fetchone_by_id memory_id (vector_store st) = Some r →
  fetchone_by_id memory_id
    (vector_store (update_memory st memory_id content tags category).2)
  = Some (patch r content tags category r).
Proof.
  intros [Hnd _] Hsome. rewrite (update_memory_found _ _ r) by done. simpl.
  rewrite fetchone_by_id_fmap by apply rewrite_row_id.
  rewrite Hsome. simpl. unfold rewrite_row.
  apply fetchone_by_id_Some in Hsome as [_ Hid]. by rewrite decide_True.
Qed.

Lemma update_memory_fetch_other st memory_id content tags category j :
  j ≠ memory_id →
  fetchone_by_id j
    (vector_store (update_memory st memory_id content tags category).2)
  = fetchone_by_id j (vector_store st).
Proof.
  intros Hne.
  destruct (fetchone_by_id memory_id (vector_store st)) as [r|] eqn:Hfetch.
  - rewrite (update_memory_found _ _ r) by done. simpl.
    rewrite fetchone_by_id_fmap by apply rewrite_row_id.
    destruct (fetchone_by_id j (vector_store st)) as [y|] eqn:Hy; [|done].
    simpl. f_equal. unfold rewrite_row.
    apply fetchone_by_id_Some in Hy as [_ Hid].
    rewrite decide_False; [done | congruence].
  - by rewrite update_memory_absent.
Qed.

(** *** The primary-key invariant holds in every reachable state *)

Lemma wf_init name : wf (init_db name).
Proof. split; simpl; constructor. Qed.

Lemma wf_add st content tags category ts now memory_id st' :
  wf st →
  add_memory st content tags category ts now = Returns (memory_id, st') →
  wf st'.
Proof.
  intros [Hnd Hlt]. unfold add_memory.
  destruct (strptime _) as [t|]; [|done]. intros [= <- <-].
  split; simpl.
  - rewrite fmap_app. simpl. apply NoDup_app. split; [done|]. split.
    + intros i Hi Hin. apply list_elem_of_singleton in Hin. subst i.
      apply list_elem_of_fmap in Hi as (r & Hid & Hr).
      rewrite Forall_forall in Hlt. specialize (Hlt r Hr). lia.
    + apply NoDup_singleton.
  - apply Forall_app. split.
    + eapply Forall_impl; [exact Hlt|]. simpl. intros r Hr. lia.
    + apply Forall_singleton. simpl. lia.
Qed.

Lemma wf_update st memory_id content tags category :
  wf st → wf (update_memory st memory_id content tags category).2.
Proof.
  intros [Hnd Hlt].
  destruct (fetchone_by_id memory_id (vector_store st)) as [r|] eqn:Hfetch.
  - rewrite (update_memory_found _ _ r) by done.
    split; simpl.
    + rewrite <- list_fmap_compose.
      erewrite list_fmap_ext; [exact Hnd|].
      intros i x _. simpl. apply rewrite_row_id.
    + apply Forall_fmap. eapply Forall_impl; [exact Hlt|].
      intros x Hx. simpl. by rewrite rewrite_row_id.
  - rewrite update_memory_absent by done. by split.
Qed.

Lemma wf_delete st memory_id :
  wf st → wf (delete_memory st memory_id).2.
Proof.
  intros [Hnd Hlt]. split; simpl.
  - assert (∀ l : list row, NoDup (row_id <$> l) →
              NoDup (row_id <$> filter (λ r, row_id r ≠ memory_id) l)) as Hgen.
    { induction l as [|x l IH]; [done|].
      rewrite fmap_cons, filter_cons. intros [Hx Hl]%NoDup_cons.
      destruct (decide _); [|by apply IH].
      rewrite fmap_cons. apply NoDup_cons. split; [|by apply IH].
      intros Hin. apply Hx.
      apply list_elem_of_fmap in Hin as (y & -> & Hy).
      apply list_elem_of_filter in Hy as [_ Hy]. by apply list_elem_of_fmap_2. }
    by apply Hgen.
  - rewrite Forall_forall in Hlt. apply Forall_forall.
    intros x [_ Hx]%list_elem_of_filter. by apply Hlt.
Qed.

Lemma reachable_wf st : reachable st → wf st.
Proof.
  induction 1 as [name | st ? ? ? ? ? ? st' _ IH Hadd | st ? ? ? ? _ IH
                 | st ? _ IH].
  - apply wf_init.
  - by eapply wf_add.
  - by apply wf_update.
  - by apply wf_delete.
Qed.

(** *** Updates that provide nothing *)

Lemma patch_nothing r content tags category :
  provided content = None → provided tags = None → provided category = None →
  patch r content tags category r = r.
Proof. intros Hc Ht Hg. unfold patch. rewrite Hc, Ht, Hg. by destruct r. Qed.

Lemma update_memory_nothing st memory_id r content tags category :
  wf st →
  fetchone_by_id memory_id (vector_store st) = Some r →
  provided content = None → provided tags = None → provided category = None →
  update_memory st memory_id content tags category = (true, st).
Proof.
  intros [Hnd _] Hsome Hc Ht Hg. rewrite (update_memory_found _ _ r) by done.
  destruct st as [name next tbl]. simpl in *. do 2 f_equal.
  rewrite <- (list_fmap_id tbl) at 2. apply list_fmap_ext.
  intros i x Hx. simpl. unfold rewrite_row.
  destruct (decide (row_id x = memory_id)) as [Hid|]; [|done].
  assert (x = r) as ->.
  { apply list_elem_of_lookup_2 in Hx.
    apply (fetchone_by_id_unique _ _ Hnd) in Hx. congruence. }
  by apply patch_nothing.
Qed.

(** ** The claims about [get_memory], [update_memory] and [delete_memory] *)

(** C5. [get_memory] is total: for an id carried by a stored row it
    returns that row's id, text and decoded metadata; for an id no row
    carries it returns [None].  It has no raising path, so a missing id is
    an ordinary result. *)
Theorem get_memory_found_or_none st memory_id :
  (∃ r, r ∈ vector_store st ∧ row_id r = memory_id ∧
        get_memory st memory_id =
          Some {| m_id := memory_id; m_content := text r;
                  m_metadata := metadata r |})
  ∨ ((∀ r, r ∈ vector_store st → row_id r ≠ memory_id) ∧
     get_memory st memory_id = None).
Proof.
  unfold get_memory.
  destruct (fetchone_by_id memory_id (vector_store st)) as [r|] eqn:Hfetch.
  - left. exists r. apply fetchone_by_id_Some in Hfetch as [Hin Hid].
    by rewrite Hid.
  - right. split; [|done]. by apply fetchone_by_id_None.
Qed.

(** C2. On a stored record, [update_memory] with only a non-empty [tags]
    list rewrites the metadata key ["tags"] and nothing else: text,
    embedding, category, every other column and every other row stay as
    they were.  With only a non-empty [content] it rewrites the text and,
    with it, the embedding of that text; the metadata (so tags and
    category) and every other row stay as they were. *)
Theorem update_memory_isolation st memory_id r :
  wf st →
  fetchone_by_id memory_id (vector_store st) = Some r →
  (∀ t, t ≠ [] →
     ∃ st' r',
       update_memory st memory_id None (Some t) None = (true, st') ∧
       fetchone_by_id memory_id (vector_store st') = Some r' ∧
       metadata r' !! "tags" = Some (JArr t) ∧
       text r' = text r ∧ embedding r' = embedding r ∧
       metadata r' !! "category" = metadata r !! "category" ∧
       r' = {| row_id := row_id r; timestamp := timestamp r; text := text r;
               embedding := embedding r; model := model r;
               metadata := <["tags" := JArr t]> (metadata r) |} ∧
       ∀ j, j ≠ memory_id →
            fetchone_by_id j (vector_store st') =
            fetchone_by_id j (vector_store st))
  ∧
  (∀ c, c ≠ EmptyString →
     ∃ st' r',
       update_memory st memory_id (Some c) None None = (true, st') ∧
       fetchone_by_id memory_id (vector_store st') = Some r' ∧
       text r' = c ∧ embedding r' = _get_embedding c ∧
       metadata r' !! "tags" = metadata r !! "tags" ∧
       metadata r' !! "category" = metadata r !! "category" ∧
       r' = {| row_id := row_id r; timestamp := timestamp r; text := c;
               embedding := _get_embedding c; model := model r;
               metadata := metadata r |} ∧
       ∀ j, j ≠ memory_id →
            fetchone_by_id j (vector_store st') =
            fetchone_by_id j (vector_store st)).
Proof.
  intros Hwf Hsome. split.
  - intros t Ht.
    pose proof (update_memory_fetch st memory_id r None (Some t) None Hwf Hsome)
      as Hfetch.
    pose proof (update_memory_fetch_other st memory_id None (Some t) None)
      as Hother.
    rewrite (update_memory_found _ _ r) in * by done.
    eexists _, _. split; [done|]. split; [exact Hfetch|].
    assert (provided (Some t) = Some t) as Hp by (by destruct t).
    unfold patch. rewrite Hp. simpl.
    rewrite lookup_insert_eq, lookup_insert_ne by done. done.
  - intros c Hc.
    pose proof (update_memory_fetch st memory_id r (Some c) None None Hwf Hsome)
      as Hfetch.
    pose proof (update_memory_fetch_other st memory_id (Some c) None None)
      as Hother.
    rewrite (update_memory_found _ _ r) in * by done.
    eexists _, _. split; [done|]. split; [exact Hfetch|].
    assert (provided (Some c) = Some c) as Hp.
    { unfold provided, truthy, str_truthy.
      destruct (String.eqb_spec c EmptyString); [done | done]. }
    unfold patch. rewrite Hp. simpl. done.
Qed.

(** C6. For an id no row carries, [update_memory] returns [False] and the
    database is the one it started from.  For a stored record it returns
    [True] and the record read back afterwards carries every change the
    call provided (text together with its embedding, tags, category) and,
    for each field the call did not provide, the old value: all of the
    requested changes land, never a part of them. *)
Theorem update_memory_all_or_nothing st memory_id content tags category :
  wf st →
  (fetchone_by_id memory_id (vector_store st) = None →
     update_memory st memory_id content tags category = (false, st))
  ∧
  (∀ r, fetchone_by_id memory_id (vector_store st) = Some r →
     ∃ st' r',
       update_memory st memory_id content tags category = (true, st') ∧
       fetchone_by_id memory_id (vector_store st') = Some r' ∧
       text r' = match provided content with
                 | Some c => c
                 | None => text r
                 end ∧
       embedding r' = match provided content with
                      | Some c => _get_embedding c
                      | None => embedding r
                      end ∧
       metadata r' !! "tags" = match provided tags with
                               | Some t => Some (JArr t)
                               | None => metadata r !! "tags"
                               end ∧
       metadata r' !! "category" = match provided category with
                                   | Some g => Some (JStr g)
                                   | None => metadata r !! "category"
                                   end).
Proof.
  intros Hwf. split; [apply update_memory_absent|].
  intros r Hsome.
  pose proof (update_memory_fetch st memory_id r content tags category
                Hwf Hsome) as Hfetch.
  rewrite (update_memory_found _ _ r) in * by done.
  eexists _, _. split; [done|]. split; [exact Hfetch|].
  unfold patch. simpl.
  destruct (provided content), (provided tags), (provided category);
    simpl; rewrite ?lookup_insert_eq, ?lookup_insert_ne by done;
    rewrite ?lookup_insert_eq; done.
Qed.

(** C8. No call of [update_memory] touches the creation time: the
    [timestamp] column of every row is the same before and after, whatever
    the arguments (new content included), and for a stored record the
    ["timestamp"] entry of its metadata is kept as well. *)
Theorem update_memory_keeps_created_at st memory_id content tags category :
  timestamp <$> vector_store
                  (update_memory st memory_id content tags category).2
    = timestamp <$> vector_store st
  ∧
  (wf st →
   ∀ r, fetchone_by_id memory_id (vector_store st) = Some r →
     ∃ r', fetchone_by_id memory_id
             (vector_store
                (update_memory st memory_id content tags category).2)
           = Some r' ∧
           timestamp r' = timestamp r ∧
           metadata r' !! "timestamp" = metadata r !! "timestamp").
Proof.
  split.
  - destruct (fetchone_by_id memory_id (vector_store st)) as [r|] eqn:Hfetch.
    + rewrite (update_memory_found _ _ r) by done. simpl.
      rewrite <- list_fmap_compose. apply list_fmap_ext.
      intros i x _. simpl. unfold rewrite_row. by destruct (decide _).
    + by rewrite update_memory_absent.
  - intros Hwf r Hsome. eexists. split; [by apply update_memory_fetch|].
    unfold patch. simpl.
    destruct (provided tags), (provided category);
      rewrite ?lookup_insert_ne by done; done.
Qed.

(** C9. [update_memory] tests its arguments with [if x:], so an empty
    string or an empty list counts as an argument that was not passed: the
    call made with it is the call made without it, and the stored field it
    would have replaced keeps its value.  Hence no call of [update_memory]
    makes the tags of a record empty, or its category the empty string,
    unless they already were. *)
Theorem update_memory_falsy_is_omitted st memory_id content tags category :
  update_memory st memory_id (Some EmptyString) tags category
    = update_memory st memory_id None tags category
  ∧ update_memory st memory_id content (Some []) category
    = update_memory st memory_id content None category
  ∧ update_memory st memory_id content tags (Some EmptyString)
    = update_memory st memory_id content tags None
  ∧
  (wf st →
   ∀ r, fetchone_by_id memory_id (vector_store st) = Some r →
     update_memory st memory_id (Some EmptyString) (Some []) (Some EmptyString)
       = (true, st)
     ∧
     ∃ r', fetchone_by_id memory_id
             (vector_store
                (update_memory st memory_id content tags category).2)
           = Some r' ∧
       (truthy content = false →
          text r' = text r ∧ embedding r' = embedding r) ∧
       (truthy tags = false →
          metadata r' !! "tags" = metadata r !! "tags") ∧
       (truthy category = false →
          metadata r' !! "category" = metadata r !! "category") ∧
       (metadata r' !! "tags" = Some (JArr []) →
          metadata r !! "tags" = Some (JArr [])) ∧
       (metadata r' !! "category" = Some (JStr EmptyString) →
          metadata r !! "category" = Some (JStr EmptyString))).
Proof.
  split; [done|]. split; [done|]. split; [done|].
  intros Hwf r Hsome. split.
  { by apply (update_memory_nothing _ _ r). }
  eexists. split; [by apply update_memory_fetch|].
  unfold patch. simpl.
  split; [|split; [|split; [|split]]].
  - intros Hc. by rewrite (provided_truthy _ Hc).
  - intros Ht. rewrite (provided_truthy _ Ht).
    destruct (provided category); rewrite ?lookup_insert_ne by done; done.
  - intros Hg. rewrite (provided_truthy _ Hg).
    destruct (provided tags); rewrite ?lookup_insert_ne by done; done.
  - destruct (provided tags) as [t|] eqn:Ht.
    + apply provided_Some in Ht as [_ Ht].
      destruct (provided category);
        rewrite ?lookup_insert_ne by done; rewrite lookup_insert_eq;
        intros [= ->]; done.
    + destruct (provided category);
        rewrite ?lookup_insert_ne by done; done.
  - destruct (provided category) as [g|] eqn:Hg.
    + apply provided_Some in Hg as [_ Hg].
      rewrite lookup_insert_eq. intros [= ->]. done.
    + destruct (provided tags); rewrite ?lookup_insert_ne by done; done.
Qed.

(** C10. On a stored record, [update_memory] called with no content, no
    tags and no category returns [True] and leaves the database, hence the
    record with all its columns, exactly as it was. *)
Theorem update_memory_no_fields_identity st memory_id r :
  wf st →
  fetchone_by_id memory_id (vector_store st) = Some r →
  update_memory st memory_id None None None = (true, st) ∧
  fetchone_by_id memory_id
    (vector_store (update_memory st memory_id None None None).2) = Some r.
Proof.
  intros Hwf Hsome.
  rewrite (update_memory_nothing _ _ r) by done. done.
Qed.

(** C7. [delete_memory] on an id no row carries returns [False] and
    leaves the table as it was.  On a stored id the first call returns
    [True] and removes the row; a second call on the same id returns
    [False] and changes nothing more. *)
Theorem delete_memory_twice st memory_id :
  (fetchone_by_id memory_id (vector_store st) = None →
     delete_memory st memory_id = (false, st))
  ∧
  (is_Some (fetchone_by_id memory_id (vector_store st)) →
     let first := delete_memory st memory_id in
     let second := delete_memory first.2 memory_id in
     first.1 = true ∧
     fetchone_by_id memory_id (vector_store first.2) = None ∧
     second = (false, first.2)).
Proof.
  assert (∀ st', fetchone_by_id memory_id (vector_store st') = None →
                 delete_memory st' memory_id = (false, st')) as Habsent.
  { intros st' Hnone. unfold delete_memory.
    pose proof (proj1 (fetchone_by_id_None _ _) Hnone) as Hno.
    rewrite (proj2 (where_id_nil _ _) Hno). simpl.
    destruct st' as [name next tbl]. simpl in *. do 2 f_equal.
    clear Hnone. induction tbl as [|x tbl IH]; [done|].
    rewrite filter_cons. rewrite decide_True by (apply Hno; left).
    f_equal. apply IH. intros y Hy. apply Hno. by right. }
  split; [apply Habsent|].
  intros [r Hsome]. simpl.
  assert (fetchone_by_id memory_id
            (vector_store (delete_memory st memory_id).2) = None) as Hgone.
  { apply fetchone_by_id_None. simpl.
    intros y [Hy _]%list_elem_of_filter. done. }
  split; [|split; [done | by apply Habsent]].
  unfold delete_memory. simpl. apply bool_decide_eq_true.
  unfold fetchone_by_id in Hsome.
  destruct (where_id memory_id (vector_store st)); [done | simpl; lia].
Qed.

(** ** The round trip of [add_memory] and [get_memory] *)

Lemma py_or_default `{Truthy A} (o : option A) (d : A) :
  py_or o d = default d (provided o).
Proof. destruct o as [a|]; simpl; [|done]. by destruct (truthy a). Qed.

Lemma fetchone_by_id_fresh tbl r :
  Forall (λ x, row_id x < row_id r) tbl →
  fetchone_by_id (row_id r) (tbl ++ [r]) = Some r.
Proof.
  intros Hlt.
  assert (where_id (row_id r) tbl = []) as Hnil.
  { apply where_id_nil. rewrite Forall_forall in Hlt.
    intros x Hx. specialize (Hlt x Hx). lia. }
  unfold fetchone_by_id, where_id in *. rewrite filter_app, Hnil. simpl.
  rewrite filter_cons, decide_True by done. done.
Qed.

(** What [add_memory] stores is what [get_memory] reads back. *)
Lemma add_memory_get_memory st content tags category now :
  wf st →
  ∃ st' m,
    add_memory st content tags category None now
      = Returns (id_seq st, st') ∧
    get_memory st' (id_seq st) = Some m ∧
    m_id m = id_seq st ∧
    m_content m = content ∧
    m_metadata m !! "tags" = Some (JArr (py_or tags [])) ∧
    m_metadata m !! "category"
      = Some (JStr (py_or category "Uncategorized"%string)).
Proof.
  intros [_ Hlt]. unfold add_memory. simpl.
  destruct (strptime_strftime now) as [t Ht]. rewrite Ht.
  eexists _, _. split; [done|]. unfold get_memory. simpl.
  match goal with |- context [vector_store st ++ [?x]] => set (r := x) end.
  change (id_seq st) with (row_id r) at 1.
  rewrite fetchone_by_id_fresh by done.
  split; [done|]. split; [done|]. split; [done|]. simpl.
  by rewrite lookup_insert_eq, lookup_insert_ne, lookup_insert_eq.
Qed.

(** C1, as the code has it. [add_memory] without a timestamp succeeds, and
    [get_memory] on the id it returns gives a record with the content that
    was passed, the tags that were passed ([[]] when none were) and the
    category that was passed, where ["Uncategorized"] stands in for a
    category that was not passed or is the empty string. *)
Theorem add_then_get_round_trip st content tags category now :
  wf st →
  ∃ memory_id st' m,
    add_memory st content tags category None now = Returns (memory_id, st') ∧
    get_memory st' memory_id = Some m ∧
    m_id m = memory_id ∧
    m_content m = content ∧
    m_metadata m !! "tags" = Some (JArr (default [] tags)) ∧
    m_metadata m !! "category" =
      Some (JStr (match category with
                  | Some c => if String.eqb c EmptyString then "Uncategorized"%string
                              else c
                  | None => "Uncategorized"%string
                  end)).
Proof.
  intros Hwf.
  destruct (add_memory_get_memory st content tags category now Hwf)
    as (st' & m & Hadd & Hget & Hid & Hcontent & Htags & Hcat).
  exists (id_seq st), st', m.
  split; [done|]. split; [done|]. split; [done|]. split; [done|]. split.
  - rewrite Htags. f_equal. f_equal. destruct tags as [[|]|]; done.
  - rewrite Hcat. f_equal. f_equal. destruct category as [c|]; [|done].
    unfold py_or, truthy, str_truthy. by destruct (String.eqb c EmptyString).
Qed.

(** ** [search_memories] *)

#[local] Instance distance_le_trans qv : Transitive (distance_le qv).
Proof. intros x y z. unfold distance_le. apply Qle_trans. Qed.

#[local] Instance distance_le_total qv : Total (distance_le qv).
Proof.
  intros x y. unfold distance_le.
  destruct (Qlt_le_dec (distance qv x) (distance qv y)) as [Hlt|Hle].
  - left. by apply Qlt_le_weak.
  - by right.
Qed.

(** A smaller distance is a larger similarity. *)
Lemma select_hit_antitone qv r1 r2 :
  distance_le qv r1 r2 →
  (similarity (select_hit qv r2) <= similarity (select_hit qv r1))%Q.
Proof.
  unfold distance_le, select_hit. simpl. intros Hle.
  unfold Qminus. apply Qplus_le_r. by apply Qopp_le_compat.
Qed.

(** *** The sort *)

Lemma insert_by_distance_perm qv r l : insert_by_distance qv r l ≡ₚ r :: l.
Proof.
  induction l as [|x l IH]; simpl; [done|].
  destruct (decide (distance_le qv r x)); [done|].
  rewrite IH. apply Permutation_swap.
Qed.

Lemma sort_by_distance_perm qv l : sort_by_distance qv l ≡ₚ l.
Proof.
  induction l as [|x l IH]; simpl; [done|].
  by rewrite insert_by_distance_perm, IH.
Qed.

Lemma insert_by_distance_sorted qv r l :
  Sorted (distance_le qv) l → Sorted (distance_le qv) (insert_by_distance qv r l).
Proof.
  induction 1 as [|x l Hl IH Hx]; simpl.
  { repeat constructor. }
  destruct (decide (distance_le qv r x)) as [Hrx|Hrx].
  { constructor; [by constructor | by constructor]. }
  assert (distance_le qv x r) as Hxr.
  { by destruct (total (distance_le qv) x r). }
  constructor; [exact IH|].
  destruct Hx as [|y l Hxy]; simpl.
  { by constructor. }
  destruct (decide (distance_le qv r y)); by constructor.
Qed.

Lemma sort_by_distance_sorted qv l :
  Sorted (distance_le qv) (sort_by_distance qv l).
Proof.
  induction l as [|x l IH]; simpl; [constructor|].
  by apply insert_by_distance_sorted.
Qed.

(** Rows already in order are left as they are: ties keep the order in
    which the rows were delivered. *)
Lemma sort_by_distance_of_sorted qv l :
  Sorted (distance_le qv) l → sort_by_distance qv l = l.
Proof.
  induction 1 as [|x l Hl IH Hx]; simpl; [done|].
  rewrite IH. destruct Hx as [|y l Hxy]; simpl; [done|].
  by rewrite decide_True.
Qed.

(** *** The access paths *)


Lemma scan_sublist path qv heap : scan path qv heap `sublist_of` heap.
Proof. destruct path; simpl; [done | apply sublist_filter]. Qed.

(** What a run returns, spelled out. *)
Lemma search_memories_run_Returns path heap query k results :
  search_memories_run path heap query k = Returns results ↔
  0 ≤ k ∧
  results = select_hit (_get_embedding query) <$>
              take (Z.to_nat k)
                (sort_by_distance (_get_embedding query)
                   (scan path (_get_embedding query) heap)).
Proof.
  unfold search_memories_run, sql_order_limit.
  destruct (decide (k < 0)); split.
  - done.
  - intros [? _]. lia.
  - intros [= <-]. split; [lia | done].
  - by intros [_ ->].
Qed.

Lemma search_memories_run_Raises path heap query k e :
  search_memories_run path heap query k = Raises e → 0 ≤ k → False.
Proof.
  unfold search_memories_run, sql_order_limit.
  destruct (decide (k < 0)); [lia | done].
Qed.

(** The rows behind the results of a search: delivered by some access
    path, in order of distance, cut at [k]. *)
Lemma search_memories_rows st query k results :
  search_memories st query k results →
  0 ≤ k ∧
  ∃ ordered,
    ordered ⊆+ vector_store st ∧
    Sorted (distance_le (_get_embedding query)) ordered ∧
    results = select_hit (_get_embedding query) <$> take (Z.to_nat k) ordered.
Proof.
  intros (path & heap & Hperm & (Hk & ->)%search_memories_run_Returns).
  split; [done|]. eexists. split; [|split; [|done]].
  - rewrite sort_by_distance_perm, <- Hperm.
    apply sublist_submseteq, scan_sublist.
  - apply sort_by_distance_sorted.
Qed.

(** Read in the right order, the table comes back in any arrangement that
    is in order of distance: the query fixes no order among rows at the
    same distance. *)
Lemma search_memories_tie_order st query k ordered :
  0 ≤ k → ordered ≡ₚ vector_store st →
  Sorted (distance_le (_get_embedding query)) ordered →
  search_memories st query k
    (select_hit (_get_embedding query) <$> take (Z.to_nat k) ordered).
Proof.
  intros Hk Hperm Hsorted. exists SeqScan, ordered. split; [done|].
  apply search_memories_run_Returns. split; [done|]. simpl.
  by rewrite sort_by_distance_of_sorted.
Qed.

(** The search returns for every [k] that is not negative. *)
Lemma search_memories_seq_scan st query k :
  0 ≤ k →
  ∃ results,
    search_memories_run SeqScan (vector_store st) query k = Returns results.
Proof.
  intros Hk. eexists. apply search_memories_run_Returns. by split.
Qed.

(** C3, as the code has it. For [k >= 1] the search returns a list, and
    every list it can return is in non-increasing order of similarity,
    each result being a stored row with similarity one minus the cosine
    distance between that row's embedding and the embedding of the query.
    The list has at most [min k n] elements for a table of [n] rows, so it
    is empty on an empty table; it has exactly [min k n] when the engine
    reads the whole table, and may have fewer when it answers from the
    ivfflat index. *)
Theorem search_memories_sorted_bounded st query k :
  1 ≤ k →
  (∃ results, search_memories st query k results) ∧
  (∀ results, search_memories st query k results →
     StronglySorted (λ h1 h2, (similarity h2 <= similarity h1)%Q) results ∧
     Forall (λ h, ∃ r, r ∈ vector_store st ∧
                   h_id h = row_id r ∧ h_content h = text r ∧
                   h_metadata h = metadata r ∧
                   similarity h =
                     (1 - cosine_distance (embedding r)
                            (_get_embedding query))%Q) results ∧
     (length results ≤ Z.to_nat k `min` length (vector_store st))%nat ∧
     (vector_store st = [] → results = [])) ∧
  (∀ heap results,
     heap ≡ₚ vector_store st →
     search_memories_run SeqScan heap query k = Returns results →
     length results = (Z.to_nat k `min` length (vector_store st))%nat).
Proof.
  intros Hk. split; [|split].
  - destruct (search_memories_seq_scan st query k) as [res Hres]; [lia|].
    exists res, SeqScan, (vector_store st). done.
  - intros results (_ & ordered & Hsub & Hsorted & ->)%search_memories_rows.
    split; [|split; [|split]].
    + apply (StronglySorted_fmap _ (distance_le (_get_embedding query))).
      { intros x y. apply select_hit_antitone. }
      apply Sorted_StronglySorted in Hsorted; [|apply _].
      rewrite <- (take_drop (Z.to_nat k) ordered) in Hsorted.
      by apply StronglySorted_app_1_l in Hsorted.
    + apply Forall_fmap, Forall_forall. intros r Hr.
      exists r. split; [|done].
      apply subseteq_take in Hr.
      by eapply elem_of_submseteq.
    + rewrite length_fmap, length_take.
      apply submseteq_length in Hsub. lia.
    + intros Hnil. rewrite Hnil in Hsub.
      apply submseteq_nil_r in Hsub. subst ordered. by rewrite take_nil.
  - intros heap results Hperm (_ & ->)%search_memories_run_Returns.
    rewrite length_fmap, length_take. simpl.
    by rewrite sort_by_distance_perm, Hperm.
Qed.

(** *** What two runs of the same search share *)

#[local] Instance Qle_transitive : Transitive Qle.
Proof. intros x y z. apply Qle_trans. Qed.





End Proofs.

(** * The properties on the concrete runtime *)

Section Concrete.
Import Demo.
#[local] Existing Instance demo_runtime.

Lemma sample_store_ids : row_id <$> vector_store sample_store = [1; 2; 3].
Proof. vm_compute. reflexivity. Qed.

Lemma sample_store_wf : wf sample_store.
Proof.
  split.
  - rewrite sample_store_ids. apply (bool_decide_unpack _). vm_compute.
    exact I.
  - apply Forall_forall. intros r Hr.
    apply (list_elem_of_fmap_2 row_id) in Hr. rewrite sample_store_ids in Hr.
    change (id_seq sample_store) with 4.
    set (i := row_id r) in *. clearbody i.
    repeat (apply elem_of_cons in Hr as [->|Hr]; [lia|]).
    by apply not_elem_of_nil in Hr.
Qed.

Lemma sample_store_fetch memory_id :
  memory_id ∈ [1; 2; 3] →
  is_Some (fetchone_by_id memory_id (vector_store sample_store)).
Proof. intros Hin. apply fetchone_by_id_in. by rewrite sample_store_ids. Qed.

Lemma sample_store_fetch_none memory_id :
  memory_id ∉ [1; 2; 3] →
  fetchone_by_id memory_id (vector_store sample_store) = None.
Proof.
  intros Hin. apply fetchone_by_id_not_in. by rewrite sample_store_ids.
Qed.

Lemma in_sample_ids_1 : (1 : Z) ∈ [1; 2; 3].
Proof. by constructor. Qed.

Lemma in_sample_ids_2 : (2 : Z) ∈ [1; 2; 3].
Proof. by repeat constructor. Qed.

Lemma not_in_sample_ids_9 : (9 : Z) ∉ [1; 2; 3].
Proof. apply (bool_decide_unpack _). vm_compute. exact I. Qed.

(** The round trip on the sample store, with an empty category. *)
Lemma add_then_get_round_trip_witness :
  wf sample_store ∧
  ∃ memory_id st' m,
    add_memory sample_store "I have run the Guangzhou Marathon" None
      (Some EmptyString) None "202611030900"%string
      = Returns (memory_id, st') ∧
    get_memory st' memory_id = Some m ∧
    m_content m = "I have run the Guangzhou Marathon"%string ∧
    m_metadata m !! "tags" = Some (JArr []) ∧
    m_metadata m !! "category" = Some (JStr "Uncategorized").
Proof.
  split; [exact sample_store_wf|].
  destruct (add_then_get_round_trip sample_store
              "I have run the Guangzhou Marathon" None (Some EmptyString)
              "202611030900"%string sample_store_wf)
    as (memory_id & st' & m & Hadd & Hget & _ & Hcontent & Htags & Hcat).
  exists memory_id, st', m. done.
Defined.

(** C1 read to the letter fails when the category passed is the empty
    string: the record read back has category ["Uncategorized"], not the
    empty string. *)
Lemma round_trip_empty_category_counterexample :
  ¬ round_trip_as_stated empty_store "note" None (Some EmptyString)
      "202611030900"%string.
Proof.
  intros (memory_id & st' & m & Hadd & Hget & _ & _ & Hcat).
  destruct (add_memory_get_memory empty_store "note" None (Some EmptyString)
              "202611030900"%string (wf_init _))
    as (st2 & m2 & Hadd2 & Hget2 & _ & _ & _ & Hcat2).
  rewrite Hadd2 in Hadd. injection Hadd as Hid Hst. subst memory_id st'.
  pose proof (eq_trans (eq_sym Hget) Hget2) as Hm.
  injection Hm as Hm. subst m.
  rewrite Hcat2 in Hcat. vm_compute in Hcat. discriminate Hcat.
Qed.

Lemma update_memory_isolation_witness :
  wf sample_store ∧
  ∃ r, fetchone_by_id 1 (vector_store sample_store) = Some r ∧
  (∃ st' r',
     update_memory sample_store 1 None (Some ["soul"%string]) None
       = (true, st') ∧
     fetchone_by_id 1 (vector_store st') = Some r' ∧
     metadata r' !! "tags" = Some (JArr ["soul"%string]) ∧
     text r' = text r ∧ embedding r' = embedding r ∧
     metadata r' !! "category" = metadata r !! "category") ∧
  (∃ st' r',
     update_memory sample_store 1 (Some "I like soul music"%string) None None
       = (true, st') ∧
     fetchone_by_id 1 (vector_store st') = Some r' ∧
     text r' = "I like soul music"%string ∧
     embedding r' = _get_embedding "I like soul music" ∧
     metadata r' = metadata r).
Proof.
  split; [exact sample_store_wf|].
  destruct (sample_store_fetch 1 in_sample_ids_1) as [r Hr].
  exists r. split; [exact Hr|].
  destruct (update_memory_isolation sample_store 1 r sample_store_wf Hr)
    as [Htags Hcontent].
  split.
  - destruct (Htags ["soul"%string] ltac:(discriminate))
      as (st' & r' & Hupd & Hfetch & Ht & Htext & Hemb & Hcat & _).
    exists st', r'. done.
  - destruct (Hcontent "I like soul music"%string ltac:(discriminate))
      as (st' & r' & Hupd & Hfetch & Htext & Hemb & _ & _ & Hrow & _).
    exists st', r'. do 4 (split; [done|]). by rewrite Hrow.
Defined.

Lemma update_memory_all_or_nothing_witness :
  wf sample_store ∧
  update_memory sample_store 9 (Some "lost"%string) None None
    = (false, sample_store) ∧
  ∃ r st' r',
    fetchone_by_id 1 (vector_store sample_store) = Some r ∧
    update_memory sample_store 1 (Some "I like soul music"%string)
      (Some []) (Some "Music"%string) = (true, st') ∧
    fetchone_by_id 1 (vector_store st') = Some r' ∧
    text r' = "I like soul music"%string ∧
    embedding r' = _get_embedding "I like soul music" ∧
    metadata r' !! "tags" = metadata r !! "tags" ∧
    metadata r' !! "category" = Some (JStr "Music").
Proof.
  split; [exact sample_store_wf|]. split.
  - apply (proj1 (update_memory_all_or_nothing sample_store 9
                    (Some "lost"%string) None None sample_store_wf)).
    apply sample_store_fetch_none, not_in_sample_ids_9.
  - destruct (sample_store_fetch 1 in_sample_ids_1) as [r Hr].
    destruct (proj2 (update_memory_all_or_nothing sample_store 1
                       (Some "I like soul music"%string) (Some [])
                       (Some "Music"%string) sample_store_wf) r Hr)
      as (st' & r' & Hupd & Hfetch & Htext & Hemb & Htags & Hcat).
    exists r, st', r'. done.
Defined.

Lemma delete_memory_twice_witness :
  delete_memory sample_store 9 = (false, sample_store) ∧
  (delete_memory sample_store 2).1 = true ∧
  fetchone_by_id 2 (vector_store (delete_memory sample_store 2).2) = None ∧
  delete_memory (delete_memory sample_store 2).2 2
    = (false, (delete_memory sample_store 2).2).
Proof.
  split.
  - apply (proj1 (delete_memory_twice sample_store 9)).
    apply sample_store_fetch_none, not_in_sample_ids_9.
  - apply (proj2 (delete_memory_twice sample_store 2)).
    apply sample_store_fetch, in_sample_ids_2.
Defined.

Lemma update_memory_keeps_created_at_witness :
  wf sample_store ∧
  ∃ r r',
    fetchone_by_id 1 (vector_store sample_store) = Some r ∧
    fetchone_by_id 1
      (vector_store
         (update_memory sample_store 1 (Some "I like soul music"%string)
            (Some ["soul"%string]) None).2) = Some r' ∧
    timestamp r' = timestamp r ∧
    metadata r' !! "timestamp" = metadata r !! "timestamp".
Proof.
  split; [exact sample_store_wf|].
  destruct (sample_store_fetch 1 in_sample_ids_1) as [r Hr].
  destruct (proj2 (update_memory_keeps_created_at sample_store 1
                     (Some "I like soul music"%string)
                     (Some ["soul"%string]) None) sample_store_wf r Hr)
    as (r' & Hfetch & Hts & Hmd).
  exists r, r'. done.
Defined.

Lemma update_memory_falsy_is_omitted_witness :
  wf sample_store ∧
  update_memory sample_store 1 (Some EmptyString) (Some []) (Some EmptyString)
    = (true, sample_store).
Proof.
  split; [exact sample_store_wf|].
  destruct (sample_store_fetch 1 in_sample_ids_1) as [r Hr].
  apply (proj2 (proj2 (proj2 (update_memory_falsy_is_omitted sample_store 1
                                None None None))) sample_store_wf r Hr).
Defined.

Lemma update_memory_no_fields_identity_witness :
  wf sample_store ∧
  update_memory sample_store 1 None None None = (true, sample_store).
Proof.
  split; [exact sample_store_wf|].
  destruct (sample_store_fetch 1 in_sample_ids_1) as [r Hr].
  apply (update_memory_no_fields_identity sample_store 1 r sample_store_wf Hr).
Defined.

Lemma sample_store_length : length (vector_store sample_store) = 3%nat.
Proof. by rewrite <- (length_fmap row_id), sample_store_ids. Qed.

Lemma search_memories_sorted_bounded_witness :
  1 ≤ 2 ∧
  (∃ results,
     search_memories sample_store "I want to see Mount Fuji" 2 results ∧
     StronglySorted (λ h1 h2, (similarity h2 <= similarity h1)%Q) results ∧
     (length results ≤ 2)%nat) ∧
  (∀ results,
     search_memories_run SeqScan (vector_store sample_store)
       "I want to see Mount Fuji" 2 = Returns results →
     length results = 2%nat).
Proof.
  split; [lia|].
  destruct (search_memories_sorted_bounded sample_store
              "I want to see Mount Fuji" 2 ltac:(lia))
    as ([results Hres] & Hall & Hseq).
  split.
  - exists results. split; [exact Hres|].
    destruct (Hall results Hres) as (Hsorted & _ & Hlen & _).
    split; [exact Hsorted|]. lia.
  - intros results' Hrun.
    rewrite (Hseq _ results' (reflexivity _) Hrun), sample_store_length.
    reflexivity.
Defined.

(** C3 read to the letter fails on the sample store: answered from an
    index that files the three rows under two lists, the search for
    ["I want to see Mount Fuji"] with [k = 2] returns the one row filed
    with the query, while [min k n] is 2. *)
Lemma search_index_scan_counterexample :
  ¬ search_sorted_limit_as_stated sample_store "I want to see Mount Fuji" 2.
Proof.
  intros Hclaim.
  assert (ids_of (search_memories_run (IndexScan demo_probed)
                    (vector_store sample_store) "I want to see Mount Fuji" 2)
          = [2]) as Hids by (vm_compute; reflexivity).
  destruct (search_memories_run (IndexScan demo_probed)
              (vector_store sample_store) "I want to see Mount Fuji" 2)
    as [results|e] eqn:Hrun; [|discriminate Hids].
  destruct (Hclaim results) as [_ Hlen].
  { exists (IndexScan demo_probed), (vector_store sample_store). done. }
  apply (f_equal length) in Hids. simpl in Hids.
  rewrite length_fmap, Hlen, sample_store_length in Hids. discriminate Hids.
Qed.



End Concrete.

(** * Further properties of the store *)

Section Further.
Context `{RT : Runtime}.
Implicit Types (st : pg) (tbl : list row) (r : row) (memory_id : Z).

(** ** [add_memory] *)

(** X2. With a non-empty [timestamp] argument, [add_memory] raises
    [ValueError] when the argument does not parse, and otherwise appends
    one row whose [timestamp] column is the parsed time and whose metadata
    keeps the argument as given; the clock is not consulted.  An empty
    [timestamp] is treated as none. *)
Theorem add_memory_with_timestamp st content tags category ts now :
  ts ≠ EmptyString →
  (strptime ts = None →
     add_memory st content tags category (Some ts) now = Raises ValueError)
  ∧ (∀ d, strptime ts = Some d →
       ∃ st' r,
         add_memory st content tags category (Some ts) now
           = Returns (id_seq st, st') ∧
         vector_store st' = vector_store st ++ [r] ∧
         row_id r = id_seq st ∧ text r = content ∧
         timestamp r = d ∧
         metadata r !! "timestamp" = Some (JStr ts))
  ∧ add_memory st content tags category (Some EmptyString) now
      = add_memory st content tags category None now.
Proof.
  intros Hne.
  assert (py_or (Some ts) (strftime now) = ts) as Hts.
  { unfold py_or, truthy, str_truthy.
    by destruct (String.eqb_spec ts EmptyString). }
  unfold add_memory. rewrite Hts. split; [|split; [|done]].
  - by intros ->.
  - intros d ->. eexists _, _. split; [done|].
    split; [done|]. simpl. split; [done|]. split; [done|]. split; [done|].
    rewrite !lookup_insert_ne by done. by rewrite lookup_insert_eq.
Qed.

Lemma add_memory_inv st content tags category ts now memory_id st' :
  add_memory st content tags category ts now = Returns (memory_id, st') →
  ∃ r, memory_id = id_seq st ∧
       st' = {| model_name := model_name st; id_seq := id_seq st + 1;
                vector_store := vector_store st ++ [r] |} ∧
       row_id r = id_seq st ∧
       text r = content ∧ embedding r = _get_embedding content ∧
       model r = model_name st ∧
       metadata r !! "tags" = Some (JArr (py_or tags [])) ∧
       metadata r !! "category"
         = Some (JStr (py_or category "Uncategorized"%string)) ∧
       metadata r !! "timestamp"
         = Some (JStr (py_or ts (strftime now))) ∧
       strptime (py_or ts (strftime now)) = Some (timestamp r).
Proof.
  unfold add_memory.
  destruct (strptime _) as [t|] eqn:Ht; [|done]. intros [= <- <-].
  eexists. split; [done|]. split; [done|]. simpl.
  split; [done|]. split; [done|]. split; [done|]. split; [done|].
  rewrite lookup_insert_eq.
  rewrite lookup_insert_ne, lookup_insert_eq by done.
  rewrite !lookup_insert_ne by done. rewrite lookup_insert_eq. done.
Qed.

Lemma fetchone_by_id_app_l tbl r memory_id :
  memory_id ≠ row_id r →
  fetchone_by_id memory_id (tbl ++ [r]) = fetchone_by_id memory_id tbl.
Proof.
  intros Hne. unfold fetchone_by_id, where_id. rewrite filter_app.
  simpl. rewrite filter_cons, decide_False by done.
  rewrite filter_nil. by rewrite app_nil_r.
Qed.

(** X4. A successful [add_memory] leaves every other id as it was: for
    each id but the one it returns, [get_memory] answers after the call
    what it answered before. *)
Theorem add_memory_keeps_others st content tags category ts now memory_id st' :
  add_memory st content tags category ts now = Returns (memory_id, st') →
  ∀ j, j ≠ memory_id → get_memory st' j = get_memory st j.
Proof.
  intros Hadd j Hj.
  apply add_memory_inv in Hadd as (r & -> & -> & Hid & _).
  unfold get_memory. simpl. rewrite fetchone_by_id_app_l; [done|congruence].
Qed.

(** ** [delete_memory] *)

Lemma fetchone_by_id_delete tbl memory_id j :
  j ≠ memory_id →
  fetchone_by_id j (filter (λ r, row_id r ≠ memory_id) tbl)
    = fetchone_by_id j tbl.
Proof.
  intros Hne. unfold fetchone_by_id, where_id. f_equal.
  induction tbl as [|x tbl IH]; [done|].
  rewrite !filter_cons.
  destruct (decide (row_id x ≠ memory_id)) as [Hx|Hx].
  - rewrite filter_cons. destruct (decide (row_id x = j)); by rewrite IH.
  - rewrite decide_False; [done|]. intros Hxj. apply Hx. congruence.
Qed.

(** X5. [delete_memory] removes the record and nothing else: afterwards
    [get_memory] finds nothing under the deleted id and answers for every
    other id what it answered before; on a store with distinct ids that
    held the id, the table is exactly one row shorter. *)
Theorem delete_memory_frame st memory_id :
  get_memory (delete_memory st memory_id).2 memory_id = None
  ∧ (∀ j, j ≠ memory_id →
       get_memory (delete_memory st memory_id).2 j = get_memory st j)
  ∧ (wf st → is_Some (get_memory st memory_id) →
       S (length (vector_store (delete_memory st memory_id).2))
         = length (vector_store st)).
Proof.
  split; [|split].
  - unfold get_memory. simpl.
    rewrite (proj2 (fetchone_by_id_None _ memory_id)); [done|].
    by intros y [Hy _]%list_elem_of_filter.
  - intros j Hj. unfold get_memory. simpl.
    by rewrite fetchone_by_id_delete.
  - intros [Hnd _] Hsome. unfold get_memory in Hsome. simpl.
    destruct (fetchone_by_id memory_id (vector_store st)) as [r|] eqn:Hr;
      [|by destruct Hsome].
    apply fetchone_by_id_Some in Hr as [Hin <-].
    pose proof (where_id_unique _ _ Hnd Hin) as Hone. unfold where_id in Hone.
    pose proof (Permutation_length
                  (filter_app_complement (λ x, row_id x = row_id r)
                     (vector_store st))) as Hlen.
    rewrite length_app, Hone in Hlen. exact Hlen.
Qed.

(** X6. Deleting the id a successful [add_memory] just returned succeeds
    and gives back the table as it was before the addition; only the
    sequence has moved on, so the id is not handed out again. *)
Theorem add_then_delete st content tags category ts now memory_id st' :
  wf st →
  add_memory st content tags category ts now = Returns (memory_id, st') →
  (delete_memory st' memory_id).1 = true ∧
  vector_store (delete_memory st' memory_id).2 = vector_store st ∧
  id_seq (delete_memory st' memory_id).2 = id_seq st + 1.
Proof.
  intros [_ Hlt] Hadd.
  apply add_memory_inv in Hadd as (r & -> & -> & Hid & _).
  unfold delete_memory, where_id. simpl. rewrite !filter_app. simpl.
  rewrite !filter_cons, filter_nil.
  rewrite decide_True by done. rewrite decide_False by (intros H; by apply H).
  split; [|split; [|done]].
  - apply bool_decide_eq_true. rewrite length_app. simpl. lia.
  - rewrite app_nil_r. rewrite <- Hid.
    rewrite Forall_forall in Hlt.
    induction (vector_store st) as [|x tbl IH]; [done|].
    rewrite filter_cons, decide_True.
    + f_equal. apply IH. intros y Hy. apply Hlt. by right.
    + specialize (Hlt x ltac:(by left)). lia.
Qed.

(** ** Ids over a sequence of calls *)

Lemma run_calls_ids st calls :
  wf st →
  wf (run_calls st calls).1 ∧
  id_seq st ≤ id_seq (run_calls st calls).1 ∧
  StronglySorted Z.lt (run_calls st calls).2 ∧
  Forall (λ i, id_seq st ≤ i < id_seq (run_calls st calls).1)
    (run_calls st calls).2.
Proof.
  revert st. induction calls as [|c calls IH]; intros st Hwf.
  { simpl. split; [done|]. split; [lia|]. split; constructor. }
  destruct c as [content tags category ts now | memory_id content tags category
                | memory_id]; simpl.
  - destruct (add_memory st content tags category ts now)
      as [[memory_id st1]|e] eqn:Hadd; [|by apply IH].
    pose proof (wf_add _ _ _ _ _ _ _ _ Hwf Hadd) as Hwf1.
    apply add_memory_inv in Hadd as (r & -> & Hst1 & _).
    assert (id_seq st1 = id_seq st + 1) as Hseq by (by rewrite Hst1).
    destruct (IH st1 Hwf1) as (Hwf2 & Hle & Hsorted & Hall).
    destruct (run_calls st1 calls) as [st2 ids]. simpl in *.
    split; [done|]. split; [lia|]. split.
    + constructor; [done|]. eapply Forall_impl; [exact Hall|].
      simpl. intros i Hi. lia.
    + constructor; [lia|]. eapply Forall_impl; [exact Hall|].
      simpl. intros i Hi. lia.
  - pose proof (wf_update st memory_id content tags category Hwf) as Hwf1.
    assert (id_seq (update_memory st memory_id content tags category).2
            = id_seq st) as Hseq.
    { unfold update_memory. destruct (get_memory st memory_id); [|done].
      by destruct (provided content). }
    rewrite <- Hseq. by apply IH.
  - pose proof (wf_delete st memory_id Hwf) as Hwf1.
    change (id_seq st) with (id_seq (delete_memory st memory_id).2).
    by apply IH.
Qed.

(** X7. Over any sequence of [add_memory], [update_memory] and
    [delete_memory] calls on a store that satisfies the primary-key
    invariant, the ids the successful additions return are strictly
    increasing, hence pairwise distinct, and none of them is an id the
    store held at the start or has ever handed out: an id is not reused,
    not even after its record was deleted. *)
Theorem run_calls_fresh_ids st calls :
  wf st →
  StronglySorted Z.lt (run_calls st calls).2 ∧
  NoDup (run_calls st calls).2 ∧
  Forall (λ i, id_seq st ≤ i ∧ i ∉ row_id <$> vector_store st)
    (run_calls st calls).2 ∧
  wf (run_calls st calls).1.
Proof.
  intros Hwf.
  destruct (run_calls_ids st calls Hwf) as (Hwf' & _ & Hsorted & Hall).
  split; [done|]. split; [|split; [|done]].
  - clear Hall. induction Hsorted as [|i ids Hs IH Hi]; constructor; [|done].
    intros Hin. rewrite Forall_forall in Hi. specialize (Hi i Hin). lia.
  - eapply Forall_impl; [exact Hall|]. simpl. intros i [Hi _].
    split; [done|]. intros (r & -> & Hr)%list_elem_of_fmap.
    destruct Hwf as [_ Hlt]. rewrite Forall_forall in Hlt.
    specialize (Hlt r Hr). lia.
Qed.

(** ** [search_memories] and the other operations *)

(** X8. On a store that satisfies the primary-key invariant, what a search
    returns agrees with [get_memory], whichever way the engine reads the
    table: each result carries the id, the content and the metadata that
    [get_memory] returns for its id, and no id comes twice. *)
Theorem search_memories_agrees_with_get st query k results :
  wf st →
  search_memories st query k results →
  Forall (λ h, get_memory st (h_id h)
               = Some {| m_id := h_id h; m_content := h_content h;
                         m_metadata := h_metadata h |}) results ∧
  NoDup (h_id <$> results).
Proof.
  intros [Hnd _] (_ & ordered & Hsub & _ & ->)%search_memories_rows.
  split.
  - apply Forall_fmap, Forall_forall. intros r Hr. simpl.
    assert (r ∈ vector_store st) as Hin.
    { apply subseteq_take in Hr. by eapply elem_of_submseteq. }
    unfold get_memory. by rewrite fetchone_by_id_unique.
  - rewrite <- list_fmap_compose.
    change (h_id ∘ select_hit (_get_embedding query)) with row_id.
    rewrite fmap_take. eapply sublist_NoDup; [|apply sublist_take].
    apply submseteq_sublist_l in Hsub as (heap & Hsublist & Hperm).
    eapply sublist_NoDup; [|by apply fmap_sublist].
    by rewrite Hperm.
Qed.

(** X10. A deleted record is not found again: no search on the store
    after [delete_memory], along any access path, returns a result with
    the deleted id. *)
Theorem search_memories_after_delete st memory_id query k results :
  search_memories (delete_memory st memory_id).2 query k results →
  memory_id ∉ h_id <$> results.
Proof.
  intros (_ & ordered & Hsub & _ & ->)%search_memories_rows.
  intros (h & Hid & (r & -> & Hr)%list_elem_of_fmap)%list_elem_of_fmap.
  apply subseteq_take in Hr.
  apply (elem_of_submseteq _ _ _ Hr) in Hsub. simpl in Hsub.
  apply list_elem_of_filter in Hsub as [Hne _]. by apply Hne.
Qed.

(** ** Updates one after the other *)

Lemma provided_later_or `{Truthy A} (later earlier : option A) :
  provided (later_or later earlier)
  = match provided later with
    | Some a => Some a
    | None => provided earlier
    end.
Proof.
  unfold later_or. destruct (provided later) as [a|] eqn:Hl; [|done].
  apply provided_Some in Hl as [_ Ha]. simpl. by rewrite Ha.
Qed.

(** [update_memory] looks at its arguments only through [if x:]. *)
Lemma update_memory_provided st memory_id c t g c' t' g' :
  provided c = provided c' → provided t = provided t' →
  provided g = provided g' →
  update_memory st memory_id c t g = update_memory st memory_id c' t' g'.
Proof. intros Hc Ht Hg. unfold update_memory. by rewrite Hc, Ht, Hg. Qed.

Lemma patch_patch r c1 t1 g1 c2 t2 g2 x :
  patch (patch r c1 t1 g1 r) c2 t2 g2 (patch r c1 t1 g1 x)
  = patch r (later_or c2 c1) (later_or t2 t1) (later_or g2 g1) x.
Proof.
  unfold patch. rewrite !provided_later_or. simpl.
  destruct (provided c1), (provided c2); simpl; f_equal.
  all: destruct (provided t1), (provided t2), (provided g1), (provided g2);
    simpl; try done.
  all: apply map_eq; intros key;
    destruct (decide (key = "tags"%string)) as [->|];
    [|destruct (decide (key = "category"%string)) as [->|]];
    by simplify_map_eq.
Qed.

Lemma update_memory_then_update st memory_id c1 t1 g1 c2 t2 g2 :
  update_memory (update_memory st memory_id c1 t1 g1).2 memory_id c2 t2 g2
  = update_memory st memory_id
      (later_or c2 c1) (later_or t2 t1) (later_or g2 g1).
Proof.
  destruct (fetchone_by_id memory_id (vector_store st)) as [r|] eqn:Hfetch.
  - assert (row_id r = memory_id) as Hid
      by (by apply fetchone_by_id_Some in Hfetch as [_ ?]).
    rewrite (update_memory_found st _ r c1 t1 g1) by done. simpl.
    rewrite (update_memory_found _ _ (patch r c1 t1 g1 r)).
    + rewrite (update_memory_found st _ r) by done. simpl.
      do 2 f_equal. rewrite <- list_fmap_compose. apply list_fmap_ext.
      intros i x _. simpl. unfold rewrite_row.
      destruct (decide (row_id x = memory_id)) as [Hx|Hx].
      * rewrite decide_True by done. apply patch_patch.
      * by rewrite decide_False.
    + simpl. rewrite fetchone_by_id_fmap by apply rewrite_row_id.
      rewrite Hfetch. simpl. unfold rewrite_row. by rewrite decide_True.
  - rewrite (update_memory_absent st _ c1) by done. simpl.
    by rewrite !update_memory_absent.
Qed.

(** X11. Two [update_memory] calls on the same id, one after the other,
    leave the store that a single call leaves, the one whose every
    argument is the second call's when that provides it and the first
    call's otherwise: field by field the later value wins, and a field the
    second call leaves out keeps what the first call wrote. *)
Theorem update_memory_later_wins st memory_id c1 t1 g1 c2 t2 g2 :
  (update_memory (update_memory st memory_id c1 t1 g1).2 memory_id c2 t2 g2).2
  = (update_memory st memory_id
       (later_or c2 c1) (later_or t2 t1) (later_or g2 g1)).2
  ∧ (update_memory (update_memory st memory_id c1 t1 g1).2
       memory_id c2 t2 g2).1
    = (update_memory st memory_id c1 t1 g1).1.
Proof.
  rewrite update_memory_then_update. split; [done|].
  destruct (fetchone_by_id memory_id (vector_store st)) as [r|] eqn:Hfetch.
  - by rewrite !(update_memory_found st _ r).
  - by rewrite !update_memory_absent.
Qed.

(** X12. [update_memory] is idempotent: repeating a call with the same
    arguments returns the same flag and changes nothing further. *)
Theorem update_memory_idempotent st memory_id content tags category :
  update_memory (update_memory st memory_id content tags category).2
    memory_id content tags category
  = ((update_memory st memory_id content tags category).1,
     (update_memory st memory_id content tags category).2).
Proof.
  rewrite update_memory_then_update.
  rewrite (update_memory_provided st memory_id _ _ _ content tags category).
  - by destruct (update_memory st memory_id content tags category).
  - rewrite provided_later_or. by destruct (provided content).
  - rewrite provided_later_or. by destruct (provided tags).
  - rewrite provided_later_or. by destruct (provided category).
Qed.

(** ** Invariants of the reachable states *)

(** X13. In every state reached from a fresh database the ids of the
    stored rows are pairwise distinct, at least 1, and below the next
    value of the sequence, which never falls under 1. *)
Theorem reachable_primary_key st :
  reachable st →
  NoDup (row_id <$> vector_store st) ∧
  Forall (λ r, 1 ≤ row_id r < id_seq st) (vector_store st) ∧
  1 ≤ id_seq st.
Proof.
  intros Hreach.
  assert (1 ≤ id_seq st ∧ Forall (λ r, 1 ≤ row_id r) (vector_store st))
    as [Hseq Hpos].
  { induction Hreach as [name | st ? ? ? ? ? ? st' _ [IHs IHp] Hadd
                        | st ? ? ? ? _ [IHs IHp] | st ? _ [IHs IHp]].
    - split; [simpl; lia | constructor].
    - apply add_memory_inv in Hadd as (r & -> & -> & Hid & _). simpl.
      split; [lia|]. apply Forall_app. split; [done|].
      apply Forall_singleton. lia.
    - destruct (fetchone_by_id memory_id (vector_store st)) as [r|] eqn:Hf.
      + rewrite (update_memory_found _ _ r) by done. simpl.
        split; [done|]. apply Forall_fmap.
        eapply Forall_impl; [exact IHp|]. intros x Hx. simpl.
        by rewrite rewrite_row_id.
      + by rewrite update_memory_absent.
    - simpl. split; [done|]. rewrite Forall_forall in IHp.
      apply Forall_forall. intros x [_ Hx]%list_elem_of_filter. by apply IHp. }
  destruct (reachable_wf st Hreach) as [Hnd Hlt].
  split; [done|]. split; [|done].
  rewrite Forall_forall in Hlt, Hpos. apply Forall_forall.
  intros r Hr. split; [by apply Hpos | by apply Hlt].
Qed.

(** X14. In every state reached from a fresh database, the embedding
    stored with a row is the embedding of the text stored with it, of the
    model's 384 components, and the model recorded in the row is the
    system's: text and vector never drift apart. *)
Theorem reachable_embedding_of_text st :
  reachable st → Forall (row_derived st) (vector_store st).
Proof.
  induction 1 as [name | st ? ? ? ? ? ? st' _ IH Hadd | st ? ? ? ? _ IH
                 | st ? _ IH].
  - constructor.
  - apply add_memory_inv in Hadd
      as (r & -> & -> & _ & Htext & Hemb & Hmodel & _). simpl.
    apply Forall_app. split; [done|]. apply Forall_singleton.
    unfold row_derived. simpl. rewrite Hemb, Htext.
    split; [done|]. split; [apply encode_dim | done].
  - destruct (fetchone_by_id memory_id (vector_store st)) as [r|] eqn:Hf.
    + rewrite (update_memory_found _ _ r) by done. simpl.
      apply Forall_fmap. eapply Forall_impl; [exact IH|].
      intros x (Hemb & Hlen & Hmodel). unfold row_derived, rewrite_row. simpl.
      destruct (decide (row_id x = memory_id)); [|done].
      unfold patch. simpl. destruct (provided content) as [c|]; [|done].
      split; [done|]. split; [apply encode_dim | done].
    + by rewrite update_memory_absent.
  - simpl. rewrite Forall_forall in IH. apply Forall_forall.
    intros x [_ Hx]%list_elem_of_filter. by apply IH.
Qed.

Lemma truthy_str_nonempty (s : string) : truthy s = true → s ≠ EmptyString.
Proof. unfold truthy, str_truthy. by destruct (String.eqb_spec s EmptyString). Qed.

(** X15. In every state reached from a fresh database, the metadata of
    each row has a list under ["tags"], a string other than the empty one
    under ["category"], and under ["timestamp"] the string that parses to
    the row's [timestamp] column. *)
Theorem reachable_metadata_shaped st :
  reachable st → Forall metadata_shaped (vector_store st).
Proof.
  induction 1 as [name | st ? ? ? ? ? ? st' Hreach IH Hadd
                 | st ? ? ? ? Hreach IH | st ? _ IH].
  - constructor.
  - apply add_memory_inv in Hadd
      as (r & -> & -> & _ & _ & _ & _ & Htags & Hcat & Hts & Hparse). simpl.
    apply Forall_app. split; [done|]. apply Forall_singleton.
    eexists _, _, _. split; [exact Htags|]. split; [exact Hcat|].
    split; [|done].
    destruct category as [c|]; [|done]. simpl.
    destruct (truthy c) eqn:Hc; [by apply truthy_str_nonempty | done].
  - destruct (fetchone_by_id memory_id (vector_store st)) as [r|] eqn:Hf.
    + destruct (reachable_wf st Hreach) as [Hnd _].
      rewrite (update_memory_found _ _ r) by done. simpl.
      apply Forall_fmap, Forall_forall. intros x Hx. simpl.
      rewrite Forall_forall in IH. unfold rewrite_row.
      destruct (decide (row_id x = memory_id)) as [Hid|]; [|by apply IH].
      assert (x = r) as -> by
        (apply (fetchone_by_id_unique _ _ Hnd) in Hx; congruence).
      destruct (IH r Hx) as (t0 & g0 & ts & Ht0 & Hg0 & Hne & Hts & Hparse).
      unfold metadata_shaped, patch. simpl.
      exists (default t0 (provided tags)), (default g0 (provided category)), ts.
      assert (default g0 (provided category) ≠ EmptyString) as Hne'.
      { destruct (provided category) as [g|] eqn:Hg; [|done]. simpl.
        apply provided_Some in Hg as [_ Hg]. by apply truthy_str_nonempty. }
      destruct (provided tags) as [t|], (provided category) as [g|];
        simpl in *; repeat split; by simplify_map_eq.
    + by rewrite update_memory_absent.
  - simpl. rewrite Forall_forall in IH. apply Forall_forall.
    intros x [_ Hx]%list_elem_of_filter. by apply IH.
Qed.

End Further.

(** * The further properties on the concrete runtime *)

Section FurtherConcrete.
Import Demo.
#[local] Existing Instance demo_runtime.

Lemma add_all_reachable st items : reachable st → reachable (add_all st items).
Proof.
  revert st. induction items as [|[[c t] g] items IH]; intros st Hst; [done|].
  cbn [add_all].
  destruct (add_memory st c t g None "202611030900"%string)
    as [[memory_id st']|e] eqn:Hadd; [|done].
  apply IH. exact (reach_add st c t g None _ memory_id st' Hst Hadd).
Qed.

Lemma sample_store_reachable : reachable sample_store.
Proof. apply add_all_reachable, reach_init. Qed.

Lemma add_memory_with_timestamp_witness :
  "202506150900"%string ≠ EmptyString ∧
  (∃ st' r,
     add_memory sample_store "I have run the Guangzhou Marathon"
       (Some ["marathon"%string; "running"%string]) (Some "Sports"%string)
       (Some "202506150900"%string) "202611030900"%string
       = Returns (id_seq sample_store, st') ∧
     vector_store st' = vector_store sample_store ++ [r] ∧
     timestamp r = "202506150900"%string ∧
     metadata r !! "timestamp" = Some (JStr "202506150900")) ∧
  add_memory sample_store "I have run the Guangzhou Marathon" None None
    (Some "June 15"%string) "202611030900"%string = Raises ValueError.
Proof.
  split; [discriminate|]. split.
  - destruct (proj1 (proj2 (add_memory_with_timestamp sample_store
                      "I have run the Guangzhou Marathon"
                      (Some ["marathon"%string; "running"%string])
                      (Some "Sports"%string) "202506150900"%string
                      "202611030900"%string ltac:(discriminate)))
                "202506150900"%string eq_refl)
      as (st' & r & Hadd & Htbl & _ & _ & Hts & Hmd).
    exists st', r. done.
  - apply (proj1 (add_memory_with_timestamp sample_store
                    "I have run the Guangzhou Marathon" None None
                    "June 15"%string "202611030900"%string
                    ltac:(discriminate))).
    reflexivity.
Defined.

Lemma add_memory_keeps_others_witness :
  ∃ memory_id st',
    add_memory sample_store "My favorite food is chicken wings" None None
      None "202611030900"%string = Returns (memory_id, st') ∧
    get_memory st' 1 = get_memory sample_store 1.
Proof.
  destruct (add_memory_get_memory sample_store
              "My favorite food is chicken wings" None None
              "202611030900"%string sample_store_wf)
    as (st' & m & Hadd & _).
  exists (id_seq sample_store), st'. split; [exact Hadd|].
  apply (add_memory_keeps_others _ _ _ _ _ _ _ _ Hadd).
  change (id_seq sample_store) with 4. lia.
Defined.

Lemma delete_memory_frame_witness :
  get_memory (delete_memory sample_store 2).2 2 = None ∧
  get_memory (delete_memory sample_store 2).2 1 = get_memory sample_store 1 ∧
  S (length (vector_store (delete_memory sample_store 2).2)) = 3%nat.
Proof.
  destruct (delete_memory_frame sample_store 2) as (Hgone & Hothers & Hlen).
  split; [exact Hgone|]. split; [apply Hothers; lia|].
  rewrite <- sample_store_length. apply Hlen; [exact sample_store_wf|].
  unfold get_memory.
  destruct (sample_store_fetch 2 in_sample_ids_2) as [r ->]. by eexists.
Defined.

Lemma add_then_delete_witness :
  wf sample_store ∧
  ∃ memory_id st',
    add_memory sample_store "My favorite food is chicken wings" None None
      None "202611030900"%string = Returns (memory_id, st') ∧
    (delete_memory st' memory_id).1 = true ∧
    vector_store (delete_memory st' memory_id).2 = vector_store sample_store.
Proof.
  split; [exact sample_store_wf|].
  destruct (add_memory_get_memory sample_store
              "My favorite food is chicken wings" None None
              "202611030900"%string sample_store_wf)
    as (st' & m & Hadd & _).
  exists (id_seq sample_store), st'. split; [exact Hadd|].
  destruct (add_then_delete _ _ _ _ _ _ _ _ sample_store_wf Hadd)
    as (Hflag & Htbl & _).
  done.
Defined.

(** Delete the newest record, add one, delete that, add another: the two
    additions get the ids 4 and 5, never 3 again. *)
Lemma run_calls_fresh_ids_witness :
  wf sample_store ∧
  (run_calls sample_store
     [CallDelete 3;
      CallAdd "I like jazz" None None None "202611030900"%string;
      CallDelete 4;
      CallAdd "I like soul" None None None "202611030900"%string]).2
    = [4; 5] ∧
  NoDup (run_calls sample_store
     [CallDelete 3;
      CallAdd "I like jazz" None None None "202611030900"%string;
      CallDelete 4;
      CallAdd "I like soul" None None None "202611030900"%string]).2.
Proof.
  split; [exact sample_store_wf|]. split; [vm_compute; reflexivity|].
  apply (run_calls_fresh_ids sample_store _ sample_store_wf).
Defined.

Lemma search_memories_agrees_with_get_witness :
  wf sample_store ∧
  ∃ results,
    search_memories_run (IndexScan demo_probed) (vector_store sample_store)
      "I like R&B music" 2 = Returns results ∧
    Forall (λ h, get_memory sample_store (h_id h)
                 = Some {| m_id := h_id h; m_content := h_content h;
                           m_metadata := h_metadata h |}) results ∧
    NoDup (h_id <$> results).
Proof.
  split; [exact sample_store_wf|].
  destruct (search_memories_run (IndexScan demo_probed)
              (vector_store sample_store) "I like R&B music" 2)
    as [results|e] eqn:Hrun;
    [|apply search_memories_run_Raises in Hrun; [done | lia]].
  exists results. split; [done|].
  apply (search_memories_agrees_with_get sample_store "I like R&B music" 2
           results sample_store_wf).
  exists (IndexScan demo_probed), (vector_store sample_store). done.
Defined.

Lemma search_memories_after_delete_witness :
  ∃ results,
    search_memories (delete_memory sample_store 1).2 "I like R&B music" 5
      results ∧
    1 ∉ h_id <$> results.
Proof.
  destruct (search_memories_run (IndexScan demo_probed)
              (vector_store (delete_memory sample_store 1).2)
              "I like R&B music" 5) as [results|e] eqn:Hrun;
    [|apply search_memories_run_Raises in Hrun; [done | lia]].
  assert (search_memories (delete_memory sample_store 1).2
            "I like R&B music" 5 results) as Hres.
  { exists (IndexScan demo_probed),
           (vector_store (delete_memory sample_store 1).2). done. }
  exists results. split; [exact Hres|].
  apply (search_memories_after_delete sample_store 1 "I like R&B music" 5
           results Hres).
Defined.

Lemma reachable_primary_key_witness :
  reachable sample_store ∧
  NoDup (row_id <$> vector_store sample_store) ∧
  Forall (λ r, 1 ≤ row_id r < id_seq sample_store) (vector_store sample_store).
Proof.
  split; [exact sample_store_reachable|].
  destruct (reachable_primary_key sample_store sample_store_reachable)
    as (Hnd & Hrange & _).
  done.
Defined.

Lemma reachable_embedding_of_text_witness :
  reachable sample_store ∧
  Forall (row_derived sample_store) (vector_store sample_store).
Proof.
  split; [exact sample_store_reachable|].
  apply (reachable_embedding_of_text sample_store sample_store_reachable).
Defined.

Lemma reachable_metadata_shaped_witness :
  reachable sample_store ∧
  Forall metadata_shaped (vector_store sample_store).
Proof.
  split; [exact sample_store_reachable|].
  apply (reachable_metadata_shaped sample_store sample_store_reachable).
Defined.

End FurtherConcrete.
